(** * The chat fan-out core of main.go

    The core is the two package-level variables [clients] and [broadcast],
    the goroutine [handleMessages] and the closure that [main] hands to
    [websocket.New] (called [wsHandler] here).

    The goroutines are modelled by an interleaving semantics: every task has
    a program counter that names the statement it executes next, and a step
    of the system is one statement of one task.  The step function is
    executable; a schedule is a list of actions.  What the program does not
    decide is carried by the action: the result of a [ReadJSON], the key
    that [range clients] produces next, and the condition of the network.

    Every statement is taken as one atomic step.  Go gives no such guarantee
    for unsynchronised accesses to a map; the section on conflicting accesses
    states where two tasks are about to touch [clients] at the same time. *)

From stdpp Require Import gmap strings list fin_maps fin_sets.

(** ** Data model *)

(** A [*websocket.Conn]: equality is the identity of the pointer. *)
Definition Conn := positive.

(** [type Message struct { Username string; Message string }].  The second
    field cannot share the name of the type and is called [Text]. *)
Record Message := mkMessage { Username : string; Text : string }.

#[global] Instance Message_eq_dec : EqDecision Message.
Proof. solve_decision. Defined.

(** A channel value as [make(chan T, n)] builds it: its capacity and the
    elements buffered so far, oldest first. *)
Record Chan := mkChan { chan_cap : nat; chan_buf : list Message }.

Definition make_chan (n : nat) : Chan := mkChan n [].

(** Condition of the write direction of a transport, owned by the peer and
    the network: a write on a [Broken] transport returns an error, a write on
    a [Stalled] one does not return (no deadline is ever set on a
    connection). *)
Inductive Link := Healthy | Broken | Stalled.

#[global] Instance Link_eq_dec : EqDecision Link.
Proof. solve_decision. Defined.

(** Program counter of one run of the closure of [/api/ws]. *)
Inductive HandlerPC :=
| HConnecting                 (* at [clients[c] = true] *)
| HReading                    (* at [c.ReadJSON(&msg)] *)
| HSending (m : Message)      (* at [broadcast <- msg] *)
| HDeferDelete                (* deferred function, at [delete(clients, c)] *)
| HDeferClose                 (* deferred function, at [c.Close()] *)
| HClosed.                    (* returned *)

#[global] Instance HandlerPC_eq_dec : EqDecision HandlerPC.
Proof. solve_decision. Defined.

(** Program counter of [handleMessages].  Inside the [range] loop it carries
    the message being fanned out, the keys that were in the map when the
    loop began ([snap]) and the keys whose loop body has been completed
    ([seen]). *)
Inductive FanPC :=
| FRecv                                               (* at [msg := <-broadcast] *)
| FRange (m : Message) (snap seen : gset Conn)        (* at [for client := range clients] *)
| FWrite (m : Message) (snap seen : gset Conn) (c : Conn)   (* at [client.WriteJSON(msg)] *)
| FClose (m : Message) (snap seen : gset Conn) (c : Conn)   (* at [client.Close()] *)
| FDelete (m : Message) (snap seen : gset Conn) (c : Conn). (* at [delete(clients, client)] *)

(** What an observer of the system can see happen. *)
Inductive Event :=
| EvRegister (c : Conn)                       (* [clients[c] = true] *)
| EvRead (c : Conn) (r : option Message)      (* [ReadJSON] returned; [None] is an error *)
| EvEnqueue (c : Conn) (m : Message)          (* the send of handler [c] completed *)
| EvDequeue (m : Message)                     (* the receive of [handleMessages] completed *)
| EvWrite (c : Conn) (m : Message) (ok : bool)  (* [WriteJSON] returned *)
| EvRemove (c : Conn)                         (* [delete(clients, c)] *)
| EvClose (c : Conn).                         (* [c.Close()] *)

#[global] Instance Event_eq_dec : EqDecision Event.
Proof. solve_decision. Defined.

(** The state of the system.  [log] has the most recent event first. *)
Record State := mkState {
  clients : gmap Conn bool;           (* [var clients = make(map[*websocket.Conn]bool)] *)
  broadcast : Chan;                   (* [var broadcast = make(chan Message)] *)
  fan : FanPC;
  handlers : gmap Conn HandlerPC;
  links : gmap Conn Link;
  closed : gset Conn;
  log : list Event }.

Definition link_of (s : State) (c : Conn) : Link := default Healthy (links s !! c).

(** The state [main] leaves behind after [go handleMessages()]: both
    variables freshly made, no connection accepted yet. *)
Definition init : State :=
  mkState ∅ (make_chan 0) FRecv ∅ ∅ ∅ [].

(** ** The Registry operations, as the two tasks use them *)

Definition registry_add (c : Conn) (r : gmap Conn bool) : gmap Conn bool := <[c := true]> r.
Definition registry_remove (c : Conn) (r : gmap Conn bool) : gmap Conn bool := delete c r.

(** ** Steps *)

Inductive Action :=
| AAccept (c : Conn)                    (* [websocket.New] starts the closure on a new connection *)
| AHandler (c : Conn)                   (* the handler of [c] executes its next statement, not a read *)
| ARead (c : Conn) (r : option Message) (* [c.ReadJSON(&msg)] returns [r] *)
| AFan (pick : option Conn)             (* [handleMessages] executes its next statement *)
| AEnv (c : Conn) (l : Link).           (* the network changes the condition of [c] *)

Definition emit (e : Event) (s : State) : State :=
  mkState (clients s) (broadcast s) (fan s) (handlers s) (links s) (closed s) (e :: log s).
Definition set_clients (r : gmap Conn bool) (s : State) : State :=
  mkState r (broadcast s) (fan s) (handlers s) (links s) (closed s) (log s).
Definition set_broadcast (ch : Chan) (s : State) : State :=
  mkState (clients s) ch (fan s) (handlers s) (links s) (closed s) (log s).
Definition set_fan (f : FanPC) (s : State) : State :=
  mkState (clients s) (broadcast s) f (handlers s) (links s) (closed s) (log s).
Definition set_pc (c : Conn) (pc : HandlerPC) (s : State) : State :=
  mkState (clients s) (broadcast s) (fan s) (<[c := pc]> (handlers s)) (links s) (closed s) (log s).
Definition set_link (c : Conn) (l : Link) (s : State) : State :=
  mkState (clients s) (broadcast s) (fan s) (handlers s) (<[c := l]> (links s)) (closed s) (log s).
Definition close_conn (c : Conn) (s : State) : State :=
  mkState (clients s) (broadcast s) (fan s) (handlers s) (links s) ({[c]} ∪ closed s) (log s).

(** [broadcast <- m] by the handler of [c].  With room in the buffer the
    element is appended.  Otherwise the send completes only by handing the
    element to a receiver that is waiting; [handleMessages] is the only
    receiver, and it then enters its [range] loop over the current map. *)
Definition chan_send (c : Conn) (m : Message) (s : State) : option State :=
  let ch := broadcast s in
  if decide (length (chan_buf ch) < chan_cap ch) then
    Some (emit (EvEnqueue c m)
            (set_pc c HReading
               (set_broadcast (mkChan (chan_cap ch) (chan_buf ch ++ [m])) s)))
  else
    match fan s, chan_buf ch with
    | FRecv, [] =>
        Some (emit (EvDequeue m) (emit (EvEnqueue c m)
                (set_pc c HReading (set_fan (FRange m (dom (clients s)) ∅) s))))
    | _, _ => None
    end.

(** One statement of the closure of [/api/ws] other than the read. *)
Definition wsHandler (c : Conn) (s : State) : option State :=
  match handlers s !! c with
  | Some HConnecting =>
      Some (emit (EvRegister c)
              (set_pc c HReading (set_clients (registry_add c (clients s)) s)))
  | Some (HSending m) => chan_send c m s
  | Some HDeferDelete =>
      Some (emit (EvRemove c)
              (set_pc c HDeferClose (set_clients (registry_remove c (clients s)) s)))
  | Some HDeferClose =>
      Some (emit (EvClose c) (set_pc c HClosed (close_conn c s)))
  | Some HReading | Some HClosed | None => None
  end.

(** [c.ReadJSON(&msg)] returns.  An error leaves the loop by [break], which
    runs the deferred function; a closed connection cannot produce a
    message. *)
Definition wsHandler_read (c : Conn) (r : option Message) (s : State) : option State :=
  match handlers s !! c with
  | Some HReading =>
      match r with
      | Some m =>
          if decide (c ∈ closed s) then None
          else Some (emit (EvRead c (Some m)) (set_pc c (HSending m) s))
      | None => Some (emit (EvRead c None) (set_pc c HDeferDelete s))
      end
  | _ => None
  end.

(** One statement of [handleMessages].  [pick] is read at the head of the
    [range] loop only: [Some c] when the iteration produces the key [c],
    [None] when it ends.  A key is produced at most once and only while it
    is in the map; the iteration may end once every key of [snap] that is
    still in the map has been produced (an entry created during the
    iteration may be produced or skipped). *)
Definition handleMessages (pick : option Conn) (s : State) : option State :=
  match fan s with
  | FRecv =>
      match chan_buf (broadcast s) with
      | m :: rest =>
          Some (emit (EvDequeue m)
                  (set_fan (FRange m (dom (clients s)) ∅)
                     (set_broadcast (mkChan (chan_cap (broadcast s)) rest) s)))
      | [] => None
      end
  | FRange m snap seen =>
      match pick with
      | Some c =>
          if decide (c ∈ dom (clients s) ∧ c ∉ seen)
          then Some (set_fan (FWrite m snap seen c) s) else None
      | None =>
          if decide (snap ∩ dom (clients s) ⊆ seen)
          then Some (set_fan FRecv s) else None
      end
  | FWrite m snap seen c =>
      if decide (c ∈ closed s) then
        Some (emit (EvWrite c m false) (set_fan (FClose m snap seen c) s))
      else
        match link_of s c with
        | Healthy => Some (emit (EvWrite c m true) (set_fan (FRange m snap ({[c]} ∪ seen)) s))
        | Broken => Some (emit (EvWrite c m false) (set_fan (FClose m snap seen c) s))
        | Stalled => None
        end
  | FClose m snap seen c =>
      Some (emit (EvClose c) (set_fan (FDelete m snap seen c) (close_conn c s)))
  | FDelete m snap seen c =>
      Some (emit (EvRemove c)
              (set_fan (FRange m snap ({[c]} ∪ seen))
                 (set_clients (registry_remove c (clients s)) s)))
  end.

Definition step (a : Action) (s : State) : option State :=
  match a with
  | AAccept c =>
      match handlers s !! c with
      | None => Some (set_pc c HConnecting s)
      | Some _ => None
      end
  | AHandler c => wsHandler c s
  | ARead c r => wsHandler_read c r s
  | AFan pick => handleMessages pick s
  | AEnv c l => Some (set_link c l s)
  end.

(** A schedule, first action first. *)
Fixpoint run (acts : list Action) (s : State) : option State :=
  match acts with
  | [] => Some s
  | a :: rest =>
      match step a s with
      | Some s' => run rest s'
      | None => None
      end
  end.

Definition reachable (s : State) : Prop := ∃ acts, run acts init = Some s.

(** ** Projections of the log (most recent first) *)

Definition deliveredE (c : Conn) (e : Event) : option Message :=
  match e with
  | EvWrite c' m true => if decide (c' = c) then Some m else None
  | _ => None
  end.
Definition attemptE (c : Conn) (e : Event) : option (Message * bool) :=
  match e with
  | EvWrite c' m ok => if decide (c' = c) then Some (m, ok) else None
  | _ => None
  end.
Definition enqueueE (e : Event) : option Message :=
  match e with EvEnqueue _ m => Some m | _ => None end.
Definition dequeueE (e : Event) : option Message :=
  match e with EvDequeue m => Some m | _ => None end.

(** Messages the peer of [c] has received, messages [c] was written to
    (with the outcome), messages sent into and received from [broadcast]. *)
Definition delivered (c : Conn) (l : list Event) : list Message := omap (deliveredE c) l.
Definition attempts (c : Conn) (l : list Event) : list (Message * bool) := omap (attemptE c) l.
Definition enqueued (l : list Event) : list Message := omap enqueueE l.
Definition dequeued (l : list Event) : list Message := omap dequeueE l.

(** The part of the log that belongs to the message dequeued last: the
    write attempts on [c] since the most recent receive. *)
Fixpoint seg_attempts (c : Conn) (l : list Event) : list (Message * bool) :=
  match l with
  | [] => []
  | EvDequeue _ :: _ => []
  | EvWrite c' m ok :: l' =>
      if decide (c' = c) then (m, ok) :: seg_attempts c l' else seg_attempts c l'
  | _ :: l' => seg_attempts c l'
  end.

(** The set of registered connections, read off the log. *)
Fixpoint registry_of (l : list Event) : gset Conn :=
  match l with
  | [] => ∅
  | EvRegister c :: l' => {[c]} ∪ registry_of l'
  | EvRemove c :: l' => registry_of l' ∖ {[c]}
  | _ :: l' => registry_of l'
  end.

(** The message received last from [broadcast], with the log as it was just
    before that receive. *)
Fixpoint last_dequeue (l : list Event) : option (Message * list Event) :=
  match l with
  | [] => None
  | EvDequeue m :: l' => Some (m, l')
  | _ :: l' => last_dequeue l'
  end.

(** The connection [handleMessages] holds in its loop variable [client]. *)
Definition fan_target (f : FanPC) : option Conn :=
  match f with
  | FRecv | FRange _ _ _ => None
  | FWrite _ _ _ c | FClose _ _ _ c | FDelete _ _ _ c => Some c
  end.

(** A handler that has executed [clients[c] = true]. *)
Definition started (s : State) (c : Conn) : Prop :=
  ∃ pc, handlers s !! c = Some pc ∧ pc ≠ HConnecting.

(** [handleMessages] is inside a [WriteJSON] that does not return. *)
Definition blocked_write (s : State) : Prop :=
  ∃ m snap seen c, fan s = FWrite m snap seen c ∧ (c ∉ closed s) ∧ link_of s c = Stalled.

(** Actions that can change the transport of [c]: the network, and the
    handler of [c], whose deferred function closes it. *)
Definition touches (c : Conn) (a : Action) : bool :=
  match a with
  | AEnv c' _ | AHandler c' => bool_decide (c' = c)
  | _ => false
  end.

(** ** Conflicting accesses to [clients]

    No statement of the program takes a lock.  A task has a pending access
    when its next statement reads or writes the map. *)
Inductive Task := TFan | THandler (c : Conn).
Inductive Access := Reads | Writes.

Definition pending_access (s : State) (t : Task) : option Access :=
  match t with
  | TFan =>
      match fan s with
      | FRange _ _ _ => Some Reads
      | FDelete _ _ _ _ => Some Writes
      | _ => None
      end
  | THandler c =>
      match handlers s !! c with
      | Some HConnecting | Some HDeferDelete => Some Writes
      | _ => None
      end
  end.

Definition conflict (a1 a2 : Access) : bool :=
  match a1, a2 with Reads, Reads => false | _, _ => true end.

(** Two different tasks are about to access the map and one of them writes
    it: a data race in the sense of the Go memory model. *)
Definition race (s : State) : Prop :=
  ∃ t1 t2 a1 a2, t1 ≠ t2 ∧ pending_access s t1 = Some a1 ∧
                 pending_access s t2 = Some a2 ∧ conflict a1 a2 = true.

(** ** The invariant of the fan-out loop *)

(** Since the last receive, [c] has been written once, with the message
    received; a write that failed was followed by the removal of [c]. *)
Definition served (s : State) (m : Message) (c : Conn) : Prop :=
  ∃ ok, seg_attempts c (log s) = [(m, ok)] ∧ started s c ∧
        (ok = false → c ∉ dom (clients s)).

(** What the log holds for [c] while the loop fans [m] out, [failed] being
    the connection whose write has just returned an error. *)
Definition slot (s : State) (m : Message) (seen : gset Conn) (failed : option Conn)
    (c : Conn) : Prop :=
  if decide (c ∈ seen) then served s m c
  else if decide (failed = Some c) then seg_attempts c (log s) = [(m, false)]
  else seg_attempts c (log s) = [].

(** The loop is fanning out the message received last, and [snap] is the
    registry as it was at that receive. *)
Definition in_fanout (s : State) (m : Message) (snap : gset Conn) : Prop :=
  ∃ pre, last_dequeue (log s) = Some (m, pre) ∧ snap = registry_of pre.

(** What holds of the message received last once its [range] loop is over. *)
Definition fan_done (s : State) : Prop :=
  ∀ m pre, last_dequeue (log s) = Some (m, pre) → ∀ c,
    (seg_attempts c (log s) = [] ∨ served s m c) ∧
    (c ∈ registry_of pre → c ∈ dom (clients s) → seg_attempts c (log s) = [(m, true)]).

Definition fan_inv (s : State) : Prop :=
  match fan s with
  | FRecv => fan_done s
  | FRange m snap seen => in_fanout s m snap ∧ ∀ c, slot s m seen None c
  | FWrite m snap seen c0 =>
      in_fanout s m snap ∧ (c0 ∉ seen) ∧ started s c0 ∧ ∀ c, slot s m seen None c
  | FClose m snap seen c0 | FDelete m snap seen c0 =>
      in_fanout s m snap ∧ (c0 ∉ seen) ∧ started s c0 ∧ ∀ c, slot s m seen (Some c0) c
  end.

(** A step that is none of the loop's: it leaves the loop where it is and
    adds no write and no receive to the log. *)
Definition quiet (s s' : State) : Prop :=
  fan s' = fan s ∧
  (∀ c, seg_attempts c (log s') = seg_attempts c (log s)) ∧
  last_dequeue (log s') = last_dequeue (log s) ∧
  (∀ c, delivered c (log s') = delivered c (log s)) ∧
  dequeued (log s') = dequeued (log s) ∧
  (∀ c, started s c → started s' c) ∧
  (∀ c, started s c → c ∈ dom (clients s') → c ∈ dom (clients s)).

(** The messages in the order of time: those the peer of [c] has received,
    those sent into [broadcast] and those received from it. *)
Definition received_by (s : State) (c : Conn) : list Message := reverse (delivered c (log s)).
Definition send_order (s : State) : list Message := reverse (enqueued (log s)).
Definition receive_order (s : State) : list Message := reverse (dequeued (log s)).

(** While a message is being fanned out, a connection whose turn has not
    come has received nothing of it yet. *)
Definition order_inv (s : State) : Prop :=
  match fan s with
  | FRecv => ∀ c, delivered c (log s) `sublist_of` dequeued (log s)
  | FRange m _ seen | FWrite m _ seen _ | FClose m _ seen _ | FDelete m _ seen _ =>
      ∃ prev, dequeued (log s) = m :: prev ∧
        ∀ c, (c ∈ seen → delivered c (log s) `sublist_of` m :: prev) ∧
             (c ∉ seen → delivered c (log s) `sublist_of` prev)
  end.


(** ** The scenarios of the specification, run *)

Definition A : Conn := 1%positive.
Definition B : Conn := 2%positive.
Definition C : Conn := 3%positive.
Definition hi : Message := mkMessage "alice" "hi".

Definition join (c : Conn) : list Action := [AAccept c; AHandler c].
Definition say (c : Conn) (m : Message) : list Action := [ARead c (Some m); AHandler c].

Definition three_clients : list Action :=
  join A ++ join B ++ join C ++ say A hi ++
  [AFan (Some B); AFan None; AFan (Some A); AFan None; AFan (Some C); AFan None; AFan None].


(** The state a schedule leads to from [init] ([init] itself when the
    schedule cannot run). *)
Definition after (acts : list Action) : State := default init (run acts init).



Definition again : Message := mkMessage "bob" "hello".

(** [A] and [B] have joined, [A] has sent [hi], which the loop is fanning
    out, and [B] has read [again] and is at its send. *)
Definition busy_loop : list Action :=
  join A ++ join B ++ say A hi ++ [ARead B (Some again)].

(** [A] and [B] have joined, the transport of [A] has stalled, [B] has sent
    [hi] and the loop has been handed [A] first. *)
Definition stalled_A : list Action :=
  join A ++ join B ++ [AEnv A Stalled] ++ say B hi ++ [AFan (Some A)].

(** [A] has joined and sent [hi]; while the loop ranges over the map, [B]
    is accepted and is about to register. *)
Definition late_join : list Action := join A ++ say A hi ++ [AAccept B].
(** ** Inversion of steps *)

Ltac step_inv H :=
  unfold step, wsHandler, wsHandler_read, handleMessages, chan_send in H;
  repeat (case_match; simplify_eq/=); simplify_eq/=.
#[local] Set Warnings "-clear-no-such-hyp".

Lemma run_app acts1 acts2 s :
  run (acts1 ++ acts2) s = match run acts1 s with Some s1 => run acts2 s1 | None => None end.
Proof.
  revert s. induction acts1 as [|a acts1 IH]; intros s; simpl; [done|].
  destruct (step a s); simpl; auto.
Qed.

Lemma run_snoc acts a s s' :
  run (acts ++ [a]) s = Some s' ↔ ∃ s1, run acts s = Some s1 ∧ step a s1 = Some s'.
Proof.
  rewrite run_app. split.
  - destruct (run acts s) as [s1|] eqn:E; simpl; [|done].
    destruct (step a s1) eqn:E2; [|done]. intros [= <-]. eauto.
  - intros (s1 & -> & E). simpl. by rewrite E.
Qed.

(** Induction over the states reachable from a state. *)
Lemma run_ind (P : State → Prop) s0 :
  P s0 →
  (∀ a s s', P s → step a s = Some s' → P s') →
  ∀ acts s, run acts s0 = Some s → P s.
Proof.
  intros H0 Hstep acts. induction acts as [|a acts IH] using rev_ind; intros s.
  - intros [= <-]. done.
  - intros (s1 & H1 & H2)%run_snoc. eauto.
Qed.

Lemma step_started a s s' c : step a s = Some s' → started s c → started s' c.
Proof.
  intros H (pc & Hpc & Hne). unfold started.
  destruct a; step_inv H;
    try (destruct (decide (c0 = c)) as [->|]; simplify_map_eq; eauto; fail); eauto.
Qed.

Lemma reachable_init : reachable init.
Proof. by exists []. Qed.

Lemma reachable_step a s s' : reachable s → step a s = Some s' → reachable s'.
Proof. intros [acts H] Hs. exists (acts ++ [a]). apply run_snoc. eauto. Qed.

Lemma reachable_run acts s s' : reachable s → run acts s = Some s' → reachable s'.
Proof.
  intros [acts0 H] Hs. exists (acts0 ++ acts). rewrite run_app, H. done.
Qed.

Lemma reachable_ind (P : State → Prop) :
  P init →
  (∀ a s s', reachable s → P s → step a s = Some s' → P s') →
  ∀ s, reachable s → P s.
Proof.
  intros H0 Hstep s [acts H].
  cut (reachable s ∧ P s); [tauto|].
  eapply (run_ind (λ s, reachable s ∧ P s)); [| |exact H].
  - split; [apply reachable_init|done].
  - intros a s1 s2 [Hr HP] Hs. split; [by eapply reachable_step|eauto].
Qed.

(** ** The log and the registry *)

Lemma registry_of_registered c l : c ∈ registry_of l → EvRegister c ∈ l.
Proof.
  induction l as [|e l IH]; simpl; [set_solver|].
  destruct e; rewrite ?elem_of_union, ?elem_of_difference, ?elem_of_singleton, elem_of_cons;
    naive_solver.
Qed.

Lemma last_dequeue_split l m pre :
  last_dequeue l = Some (m, pre) →
  ∃ post, l = post ++ EvDequeue m :: pre ∧ dequeued post = [].
Proof.
  induction l as [|e l IH]; simpl; [done|].
  destruct e; try (intros (post & -> & Hp)%IH; by eexists (_ :: post)).
  intros [= -> ->]. by exists [].
Qed.

Lemma last_dequeue_elem l m pre e : last_dequeue l = Some (m, pre) → e ∈ pre → e ∈ l.
Proof. intros (post & -> & _)%last_dequeue_split. set_solver. Qed.

(** The map holds exactly the connections the log says are registered. *)
Lemma clients_registry_of s : reachable s → dom (clients s) = registry_of (log s).
Proof.
  revert s. apply reachable_ind; [set_solver|].
  intros a s s' _ IH H. destruct a; step_inv H; unfold registry_add, registry_remove;
    rewrite ?dom_insert_L, ?dom_delete_L, ?IH; done.
Qed.

(** Only a handler that has left [HConnecting] has registered. *)
Lemma registered_started s c : reachable s → EvRegister c ∈ log s → started s c.
Proof.
  revert s. apply (reachable_ind (λ s, EvRegister c ∈ log s → started s c)); [set_solver|].
  intros a s s' _ IH H Hin.
  assert (EvRegister c ∈ log s → started s' c) as Hold.
  { intros. eapply step_started; eauto. }
  destruct a; step_inv H;
    repeat (apply elem_of_cons in Hin as [?|Hin]; simplify_eq);
    auto; unfold started; simpl; eexists; (split; [apply lookup_insert_eq|done]).
Qed.

Lemma clients_started s c : reachable s → c ∈ dom (clients s) → started s c.
Proof.
  intros Hr Hc. apply registered_started; [done|].
  apply registry_of_registered. by rewrite <-clients_registry_of.
Qed.

(** ** The fan-out invariant *)

Lemma fan_inv_quiet s s' : reachable s → quiet s s' → fan_inv s → fan_inv s'.
Proof.
  intros Hr (Hfan & Hseg & Hld & _ & _ & Hst & Hdom) Hinv.
  assert (∀ m c, served s m c → served s' m c) as Hserved.
  { intros m c (ok & H1 & H2 & H3). exists ok. rewrite Hseg. naive_solver. }
  assert (∀ m seen failed c, slot s m seen failed c → slot s' m seen failed c) as Hslot.
  { intros m seen failed c. unfold slot. rewrite Hseg. repeat case_decide; auto. }
  unfold fan_inv, in_fanout, fan_done in *. rewrite Hfan, Hld.
  destruct (fan s); try naive_solver.
  intros m pre Hpre c. destruct (Hinv m pre Hpre c) as [H1 H2]. rewrite Hseg. split.
  - destruct H1; auto.
  - intros Hc Hc'. apply H2; [done|]. apply Hdom; [|done].
    apply registered_started; [done|].
    eapply last_dequeue_elem; [done|]. by apply registry_of_registered.
Qed.

Lemma step_cases a s s' :
  step a s = Some s' →
  quiet s s' ∨ (∃ pick, a = AFan pick) ∨
  (∃ c m, fan s = FRecv ∧
          s' = emit (EvDequeue m) (emit (EvEnqueue c m)
                 (set_pc c HReading (set_fan (FRange m (dom (clients s)) ∅) s)))).
Proof.
  intros H.
  assert (∀ c, started s c → started s' c) as Hst by (intros; by eapply step_started).
  destruct a; [left|..|left]; try (by right; left; eauto).
  1,4: by (step_inv H; repeat split; auto).
  - unfold step, wsHandler in H. repeat (case_match; simplify_eq/=).
    + left. repeat split; auto. simpl. unfold registry_add. rewrite dom_insert_L.
      intros c' (pc & Hpc & Hne) Hin. apply elem_of_union in Hin as [Hin|]; [|done].
      apply elem_of_singleton in Hin as ->. congruence.
    + unfold chan_send in H. repeat (case_match; simplify_eq/=).
      * left. repeat split; auto.
      * right; right. eauto.
    + left. repeat split; auto. simpl. unfold registry_remove. rewrite dom_delete_L.
      set_solver.
    + left. repeat split; auto.
  - left. step_inv H; repeat split; auto.
Qed.

Lemma slot_unseen s m seen failed c :
  slot s m seen failed c → c ∉ seen → failed ≠ Some c → seg_attempts c (log s) = [].
Proof. unfold slot. intros H ? ?. by repeat case_decide. Qed.

Lemma fan_inv_dequeue s s' m l :
  reachable s → fan s' = FRange m (dom (clients s)) ∅ →
  log s' = EvDequeue m :: l → registry_of l = registry_of (log s) → fan_inv s'.
Proof.
  intros Hr Hf Hl Hreg. unfold fan_inv. rewrite Hf. split.
  - exists l. rewrite Hl. split; [done|]. rewrite Hreg. by apply clients_registry_of.
  - intros c. unfold slot. rewrite decide_False by set_solver. simpl. by rewrite Hl.
Qed.

Lemma in_fanout_emit s m snap e f :
  in_fanout s m snap → dequeueE e = None →
  in_fanout (emit e (set_fan f s)) m snap.
Proof.
  intros (pre & Hpre & ->) He. exists pre. split; [|done]. simpl.
  by destruct e.
Qed.

Lemma served_other_write s m c c0 ok f :
  c ≠ c0 → served s m c → served (emit (EvWrite c0 m ok) (set_fan f s)) m c.
Proof.
  intros Hne (ok' & H1 & H2 & H3). exists ok'. simpl.
  rewrite decide_False by done. done.
Qed.

Lemma fan_inv_write_err s m snap seen c0 :
  in_fanout s m snap → c0 ∉ seen → started s c0 → (∀ c, slot s m seen None c) →
  fan_inv (emit (EvWrite c0 m false) (set_fan (FClose m snap seen c0) s)).
Proof.
  intros Hin Hc0 Hst Hslot. unfold fan_inv. simpl.
  split_and!; [by apply in_fanout_emit|done|done|].
  intros c. specialize (Hslot c). unfold slot in *.
  destruct (decide (c = c0)) as [->|Hne].
  - rewrite decide_False in * by done. rewrite decide_True by done.
    rewrite decide_False in Hslot by done. simpl. rewrite decide_True by done.
    by rewrite Hslot.
  - rewrite (decide_False (P := Some c0 = Some c)) by congruence.
    rewrite (decide_False (P := None = Some c)) in Hslot by done.
    case_decide; [by apply served_other_write|].
    simpl. by rewrite decide_False.
Qed.

Lemma fan_inv_write_ok s m snap seen c0 :
  in_fanout s m snap → c0 ∉ seen → started s c0 → (∀ c, slot s m seen None c) →
  fan_inv (emit (EvWrite c0 m true) (set_fan (FRange m snap ({[c0]} ∪ seen)) s)).
Proof.
  intros Hin Hc0 Hst Hslot. unfold fan_inv. simpl.
  split; [by apply in_fanout_emit|].
  intros c. specialize (Hslot c). unfold slot in *.
  rewrite (decide_False (P := None = Some c)) in * by done.
  destruct (decide (c = c0)) as [->|Hne].
  - rewrite decide_True by set_solver. rewrite decide_False in Hslot by done.
    exists true. simpl. rewrite decide_True by done. by rewrite Hslot.
  - destruct (decide (c ∈ seen)).
    + rewrite decide_True by set_solver. by apply served_other_write.
    + rewrite decide_False by set_solver. simpl. by rewrite decide_False.
Qed.

Lemma fan_inv_close s m snap seen c0 :
  in_fanout s m snap → c0 ∉ seen → started s c0 → (∀ c, slot s m seen (Some c0) c) →
  fan_inv (emit (EvClose c0) (set_fan (FDelete m snap seen c0) (close_conn c0 s))).
Proof.
  intros (pre & Hpre & ->) Hc0 Hst Hslot. unfold fan_inv. simpl.
  split_and!; [by exists pre|done|done|done].
Qed.

Lemma fan_inv_delete s m snap seen c0 :
  in_fanout s m snap → c0 ∉ seen → started s c0 → (∀ c, slot s m seen (Some c0) c) →
  fan_inv (emit (EvRemove c0)
             (set_fan (FRange m snap ({[c0]} ∪ seen))
                (set_clients (registry_remove c0 (clients s)) s))).
Proof.
  intros (pre & Hpre & ->) Hc0 Hst Hslot. unfold fan_inv. simpl.
  split; [by exists pre|].
  intros c. specialize (Hslot c). unfold slot, served, registry_remove in *. simpl.
  destruct (decide (c = c0)) as [->|Hne].
  - rewrite decide_True by set_solver. rewrite decide_False in Hslot by done.
    rewrite decide_True in Hslot by done.
    exists false. split_and!; [done|done|]. intros _. rewrite dom_delete_L. set_solver.
  - rewrite (decide_False (P := Some c0 = Some c)) in Hslot by congruence.
    destruct (decide (c ∈ seen)).
    + rewrite decide_True by set_solver.
      destruct Hslot as (ok & H1 & H2 & H3). exists ok. split_and!; [done|done|].
      intros Hok. rewrite dom_delete_L. set_solver.
    + rewrite decide_False by set_solver. done.
Qed.

Lemma fan_inv_fan pick s s' :
  reachable s → fan_inv s → handleMessages pick s = Some s' → fan_inv s'.
Proof.
  intros Hr Hinv H. unfold handleMessages in H. unfold fan_inv in Hinv.
  destruct (fan s) as [|m snap seen|m snap seen c0|m snap seen c0|m snap seen c0] eqn:Hfan.
  - (* the receive, from the buffer *)
    destruct (chan_buf (broadcast s)) as [|m rest]; simplify_eq.
    by eapply fan_inv_dequeue.
  - destruct Hinv as [Hin Hslot].
    destruct pick as [c|]; case_decide as Hd; simplify_eq.
    + (* the range clause produces a key *)
      destruct Hd as [Hd1 Hd2].
      unfold fan_inv; simpl. split_and!; [done|done| |done].
      by apply (clients_started s).
    + (* the range clause ends the loop *)
      unfold fan_inv, fan_done; simpl. intros m' pre' Hld c.
      destruct Hin as (pre & Hpre & ->). rewrite Hpre in Hld. simplify_eq.
      specialize (Hslot c). unfold slot in Hslot. split.
      * repeat case_decide; auto; done.
      * intros Hc Hc'. rewrite decide_True in Hslot by set_solver.
        destruct Hslot as ([] & Hs & _ & Hok); [done|]. by destruct Hok.
  - (* the write *)
    destruct Hinv as (Hin & Hc0 & Hst & Hslot).
    case_decide; [|destruct (link_of s c0)]; simplify_eq;
      auto using fan_inv_write_err, fan_inv_write_ok.
  - destruct Hinv as (Hin & Hc0 & Hst & Hslot). simplify_eq. by apply fan_inv_close.
  - destruct Hinv as (Hin & Hc0 & Hst & Hslot). simplify_eq. by apply fan_inv_delete.
Qed.

Lemma fan_inv_step a s s' : reachable s → fan_inv s → step a s = Some s' → fan_inv s'.
Proof.
  intros Hr Hinv H. destruct (step_cases _ _ _ H) as [Hq|[[pick ->]|(c & m & Hf & ->)]].
  - by eapply fan_inv_quiet.
  - by eapply fan_inv_fan.
  - by eapply fan_inv_dequeue.
Qed.

Lemma fan_inv_reachable s : reachable s → fan_inv s.
Proof.
  revert s. apply reachable_ind; [by intros m pre H|].
  intros a s s' Hr Hinv H. by eapply fan_inv_step.
Qed.

(** ** Order of delivery *)

Lemma sublist_reverse {A} (l1 l2 : list A) :
  l1 `sublist_of` l2 → reverse l1 `sublist_of` reverse l2.
Proof.
  induction 1 as [|x l1 l2 _ IH|x l1 l2 _ IH]; [done|..]; rewrite ?reverse_cons.
  - by apply sublist_app.
  - by apply sublist_inserts_r.
Qed.

Lemma order_inv_step a s s' : reachable s → order_inv s → step a s = Some s' → order_inv s'.
Proof.
  intros Hr Hinv H. pose proof (fan_inv_reachable s Hr) as Hfi.
  destruct (step_cases _ _ _ H) as [Hq|[[pick ->]|(c & m & Hf & ->)]].
  - destruct Hq as (Hfan & _ & _ & Hdel & Hdeq & _).
    unfold order_inv in *. rewrite Hfan, Hdeq. destruct (fan s); by setoid_rewrite Hdel.
  - simpl in H. unfold handleMessages in H. unfold order_inv, fan_inv in *.
    destruct (fan s) as [|m snap seen|m snap seen c0|m snap seen c0|m snap seen c0] eqn:Hfan.
    + destruct (chan_buf (broadcast s)) as [|m rest]; simplify_eq. simpl.
      exists (dequeued (log s)). split; [done|]. intros c. split; [set_solver|auto].
    + destruct pick as [c|]; case_decide; simplify_eq; simpl; [done|].
      destruct Hinv as (prev & -> & Hc). intros c.
      destruct (decide (c ∈ seen)); [|apply sublist_cons]; by apply Hc.
    + destruct Hfi as (_ & Hc0 & _). destruct Hinv as (prev & Hprev & Hc).
      case_decide; [|destruct (link_of s c0)]; simplify_eq; simpl; eauto.
      exists prev. split; [done|]. intros c. unfold delivered in *. simpl.
      destruct (decide (c0 = c)) as [->|Hne]; simpl.
      * split; [|set_solver]. intros _. apply sublist_skip. by apply Hc.
      * split; intros Hin; apply Hc; set_solver.
    + simplify_eq. simpl. done.
    + simplify_eq. simpl. destruct Hfi as (_ & Hc0 & _).
      destruct Hinv as (prev & Hprev & Hc). exists prev. split; [done|]. intros c.
      destruct (decide (c = c0)) as [->|Hne].
      * split; [|set_solver]. intros _. apply sublist_cons. by apply Hc.
      * split; intros Hin; apply Hc; set_solver.
  - unfold order_inv in *. rewrite Hf in Hinv. simpl.
    exists (dequeued (log s)). split; [done|]. intros c'. split; [set_solver|auto].
Qed.

Lemma order_inv_reachable s : reachable s → order_inv s.
Proof.
  revert s. apply reachable_ind; [intros c; by apply sublist_nil_l|].
  intros a s s' Hr Hinv H. by eapply order_inv_step.
Qed.

Lemma delivered_sublist s c :
  reachable s → delivered c (log s) `sublist_of` dequeued (log s).
Proof.
  intros Hr. pose proof (order_inv_reachable s Hr) as H. unfold order_inv in H.
  destruct (fan s); [done|..]; destruct H as (prev & -> & Hc);
    (destruct (decide (c ∈ seen)); [|apply sublist_cons]; by apply Hc).
Qed.

(** The channel hands out what it was given, in the order it was given. *)
Lemma fifo_step a s s' :
  step a s = Some s' →
  send_order s = receive_order s ++ chan_buf (broadcast s) →
  send_order s' = receive_order s' ++ chan_buf (broadcast s').
Proof.
  unfold send_order, receive_order. intros H Hinv.
  destruct a; step_inv H; unfold enqueued, dequeued in *; simpl;
    rewrite ?reverse_cons, ?Hinv; try done;
    repeat match goal with
           | Hb : chan_buf (broadcast _) = _ |- _ => rewrite Hb; clear Hb
           end;
    by rewrite ?app_nil_r, <-?app_assoc.
Qed.

Lemma unbuffered s :
  reachable s → chan_cap (broadcast s) = 0 ∧ chan_buf (broadcast s) = [].
Proof.
  revert s. apply reachable_ind; [done|].
  intros a s s' _ [Hcap Hbuf] H.
  destruct a; step_inv H; try done.
  rewrite Hbuf, Hcap in *. simpl in *. lia.
Qed.

(** ** Removal from the registry *)

(** C8. Remove is idempotent.  [delete] on a key that is absent leaves the
    map as it is, removing twice is removing once, no other key is touched,
    and the two statements that remove ([delete(clients, c)] in the deferred
    function of the handler and [delete(clients, client)] in the loop) are
    always able to run, whether or not the key is still there: when it has
    already gone they leave [clients] unchanged. *)
Theorem remove_idempotent (r : gmap Conn bool) (c : Conn) :
  (c ∉ dom r → registry_remove c r = r) ∧
  registry_remove c (registry_remove c r) = registry_remove c r ∧
  (∀ c', c' ≠ c → registry_remove c r !! c' = r !! c') ∧
  (∀ s, clients s = r → handlers s !! c = Some HDeferDelete → c ∉ dom r →
        ∃ s', step (AHandler c) s = Some s' ∧ clients s' = r) ∧
  (∀ s m snap seen, clients s = r → fan s = FDelete m snap seen c → c ∉ dom r →
        ∃ s', step (AFan None) s = Some s' ∧ clients s' = r).
Proof.
  unfold registry_remove. split_and!.
  - intros Hc. apply delete_id. by apply not_elem_of_dom.
  - apply delete_delete_eq.
  - intros c' Hne. by apply lookup_delete_ne.
  - intros s <- Hpc Hc. eexists. simpl. unfold wsHandler. rewrite Hpc.
    split; [done|]. simpl. unfold registry_remove. apply delete_id.
    by apply not_elem_of_dom.
  - intros s m snap seen <- Hf Hc. eexists. simpl. unfold handleMessages. rewrite Hf.
    split; [done|]. simpl. unfold registry_remove. apply delete_id.
    by apply not_elem_of_dom.
Qed.

(** ** The handler on a failed read *)




(** ** A failed write in the fan-out loop *)





(** ** The channel *)

(** C4 fails on the code: [broadcast] is made without a capacity, and a
    handler at its send is stuck while the loop is busy with an earlier
    message. *)
Lemma enqueue_can_block :
  chan_cap (broadcast init) = 0 ∧
  ¬ (∀ s c m, reachable s → handlers s !! c = Some (HSending m) →
              is_Some (step (AHandler c) s)).
Proof.
  split; [done|]. intros H.
  destruct (H (after busy_loop) B again) as [s' Hs'].
  - exists busy_loop. vm_compute. reflexivity.
  - vm_compute. reflexivity.
  - vm_compute in Hs'. discriminate.
Qed.

(** C4, as the code has it.  [broadcast] is an unbuffered channel: it has
    capacity 0 and never holds a message, and the send of a handler
    completes exactly when [handleMessages] is waiting at its receive; while
    the loop fans out an earlier message the sender stays blocked. *)
Theorem enqueue_is_rendezvous s c m :
  reachable s → handlers s !! c = Some (HSending m) →
  chan_cap (broadcast s) = 0 ∧ chan_buf (broadcast s) = [] ∧
  (is_Some (step (AHandler c) s) ↔ fan s = FRecv).
Proof.
  intros Hr Hpc. destruct (unbuffered s Hr) as [Hcap Hbuf].
  split_and!; [done|done|].
  simpl. unfold wsHandler, chan_send. rewrite Hpc, Hcap, Hbuf. simpl.
  destruct (fan s); split; intros H; try done; by destruct H.
Qed.

Lemma enqueue_is_rendezvous_witness :
  reachable (after busy_loop) ∧ handlers (after busy_loop) !! B = Some (HSending again) ∧
  chan_cap (broadcast (after busy_loop)) = 0 ∧
  (is_Some (step (AHandler B) (after busy_loop)) ↔ fan (after busy_loop) = FRecv).
Proof.
  assert (reachable (after busy_loop)) as Hr by (exists busy_loop; vm_compute; reflexivity).
  assert (handlers (after busy_loop) !! B = Some (HSending again)) as Hpc
    by (vm_compute; reflexivity).
  split; [exact Hr|]. split; [exact Hpc|].
  destruct (enqueue_is_rendezvous (after busy_loop) B again Hr Hpc) as (H1 & _ & H3).
  split; [exact H1|exact H3].
Defined.

(** ** A write that does not return *)

(** C9 fails on the code: the write has no deadline and is made by the loop
    itself.  With the transport of [A] stalled the loop cannot execute any
    statement, although [B] is registered, healthy and has not been
    written. *)
Lemma blocked_write_stalls_loop :
  ¬ (∀ s, reachable s → fan s ≠ FRecv → ∃ pick s', step (AFan pick) s = Some s').
Proof.
  intros H. destruct (H (after stalled_A)) as (pick & s' & Hs').
  - exists stalled_A. vm_compute. reflexivity.
  - vm_compute. discriminate.
  - destruct pick; vm_compute in Hs'; discriminate.
Qed.

Lemma blocked_step a s t m snap seen c :
  fan s = FWrite m snap seen c → c ∉ closed s → link_of s c = Stalled →
  touches c a = false → step a s = Some t →
  fan t = fan s ∧ (c ∉ closed t) ∧ link_of t c = Stalled ∧
  (∀ c', attempts c' (log t) = attempts c' (log s)) ∧
  dequeued (log t) = dequeued (log s).
Proof.
  intros Hf Hc Hl Ht H. unfold link_of in *.
  destruct a; simpl in Ht; try (apply bool_decide_eq_false in Ht).
  - step_inv H. done.
  - unfold step, wsHandler, chan_send in H.
    repeat (case_match; simplify_eq/=); try done.
    split_and!; try done. set_solver.
  - step_inv H; done.
  - unfold step, handleMessages, link_of in H. rewrite Hf in H.
    rewrite decide_False in H by done. by rewrite Hl in H.
  - step_inv H. rewrite lookup_insert_ne by done. done.
Qed.

(** C9, as the code has it.  The write is synchronous and unbounded: while
    [WriteJSON] on [c] does not return (the transport is stalled and nobody
    closes the connection), whatever the other tasks do the loop stays in
    that write, no connection is written to and no further message is
    received. *)
Theorem stalled_write_stalls_fanout acts s t m snap seen c :
  fan s = FWrite m snap seen c → c ∉ closed s → link_of s c = Stalled →
  Forall (λ a, touches c a = false) acts → run acts s = Some t →
  fan t = fan s ∧ blocked_write t ∧
  (∀ c', attempts c' (log t) = attempts c' (log s)) ∧
  dequeued (log t) = dequeued (log s).
Proof.
  revert s. induction acts as [|a acts IH]; intros s Hf Hc Hl Hall Hrun.
  - simpl in Hrun. simplify_eq. split_and!; try done. by exists m, snap, seen, c.
  - apply Forall_cons in Hall as [Ha Hall]. simpl in Hrun.
    destruct (step a s) as [s1|] eqn:Hs; [|done].
    destruct (blocked_step _ _ _ _ _ _ _ Hf Hc Hl Ha Hs) as (H1 & H2 & H3 & H4 & H5).
    destruct (IH s1) as (K1 & K2 & K3 & K4); try done; [congruence|].
    split_and!; [congruence|done| |congruence].
    intros c'. by rewrite K3, H4.
Qed.

Lemma stalled_write_stalls_fanout_witness :
  fan (after stalled_A) = FWrite hi {[A; B]} ∅ A ∧
  (A ∉ closed (after stalled_A)) ∧ link_of (after stalled_A) A = Stalled ∧
  ∀ t, run [ARead B (Some again); AAccept C; AHandler C] (after stalled_A) = Some t →
       attempts B (log t) = attempts B (log (after stalled_A)) ∧ blocked_write t.
Proof.
  assert (fan (after stalled_A) = FWrite hi {[A; B]} ∅ A) as Hf by (vm_compute; reflexivity).
  assert (A ∉ closed (after stalled_A)) as Hc by (vm_compute; set_solver).
  assert (link_of (after stalled_A) A = Stalled) as Hl by (vm_compute; reflexivity).
  split_and!; [exact Hf|exact Hc|exact Hl|].
  intros t Hrun.
  destruct (stalled_write_stalls_fanout [ARead B (Some again); AAccept C; AHandler C]
              _ t _ _ _ _ Hf Hc Hl ltac:(repeat constructor) Hrun) as (_ & H2 & H3 & _).
  split; [apply H3|exact H2].
Defined.
(** ** The scenarios of the specification, run *)

Example three_clients_each_one_copy :
  ∃ s, run three_clients init = Some s ∧
       delivered A (log s) = [hi] ∧ delivered B (log s) = [hi] ∧ delivered C (log s) = [hi] ∧
       fan s = FRecv.
Proof. eexists. split; [vm_compute; reflexivity|]. vm_compute. done. Qed.

